(** * A shallow embedding of [main.py]: the WebSocket duplex OPUS audio client

    Pure parts of the client become Rocq functions, the threads and
    callbacks become explicit state passing over small records.  External
    collaborators (PortAudio, opuslib, websocket-client, json) are inputs:
    their observable result at each call is a parameter of the model. *)

From Stdlib Require Import ZArith String Bool Lia List.
Import ListNotations.
Open Scope Z_scope.
Set Warnings "-register-all".

(** ** Global configuration (lines 18-23) *)

Definition SAMPLE_RATE : Z := 24000.
Definition CHANNELS : Z := 1.
Definition FRAME_MS : Z := 60.
Definition CHUNK : Z := SAMPLE_RATE * FRAME_MS / 1000.
Definition MAX_QUEUE_SIZE : nat := 30.

(** Bytes of one [paInt16] mono frame: [CHUNK] samples of 2 bytes. *)
Definition FRAME_BYTES : Z := CHUNK * 2 * CHANNELS.

(** A Python [bytes] object: its elements are the ints [0..255]. *)
Definition pybytes := list Z.

(** Truthiness of a [bytes] value, as used by [if x := ...:]. *)
Definition truthy (b : pybytes) : bool :=
  match b with [] => false | _ => true end.

(** ** [queue.Queue(maxsize=...)] *)
Module PyQueue.

(** [put(item)] with the default [block=True, timeout=None]: on a full
    bounded queue the call waits until a consumer frees a slot; in the
    state of the queue at the call this is no progress. *)
Inductive put_result (A : Type) :=
| PutDone (q : list A)
| PutBlocks.
Arguments PutDone {A} q.
Arguments PutBlocks {A}.

Definition put {A} (maxsize : nat) (q : list A) (x : A) : put_result A :=
  if (0 <? maxsize)%nat && (maxsize <=? length q)%nat
  then PutBlocks
  else PutDone (q ++ [x]).

(** [get_nowait()]: [None] stands for the [queue.Empty] exception. *)
Definition get_nowait {A} (q : list A) : option (A * list A) :=
  match q with
  | [] => None
  | x :: q' => Some (x, q')
  end.

(** A producer offering items one after another; it stops at the first
    offer that does not complete, returning the queue and the items it
    still holds. *)
Fixpoint offer_all {A} (maxsize : nat) (q : list A) (xs : list A)
  : list A * list A :=
  match xs with
  | [] => (q, [])
  | x :: xs' =>
      match put maxsize q x with
      | PutDone q' => offer_all maxsize q' xs'
      | PutBlocks => (q, xs)
      end
  end.

End PyQueue.

(** ** [collections.deque(maxlen=...)] *)
Module Deque.

(** [append(x)] on a bounded deque: when full, the leftmost (oldest)
    element is discarded. *)
Definition append {A} (maxlen : nat) (d : list A) (x : A) : list A :=
  let d' := d ++ [x] in
  if (maxlen <? length d')%nat then tl d' else d'.

(** [extend(iterable)]: one [append] per element, left to right. *)
Definition extend {A} (maxlen : nat) (d : list A) (xs : list A) : list A :=
  fold_left (append maxlen) xs d.

Definition clear {A} (d : list A) : list A := [].

(** The last [n] elements of a list. *)
Definition lastn {A} (n : nat) (l : list A) : list A :=
  skipn (length l - n) l.

End Deque.

(** ** [AudioIO] *)
Module AudioIO.

(** The part of [AudioIO] the claims observe: the two buffers, and what
    has been handed to the output device stream. *)
Record t := mk {
  input_queue : list pybytes;
  output_buffer : list Z;
  device_written : list pybytes
}.

Definition with_input (s : t) (q : list pybytes) : t :=
  mk q (output_buffer s) (device_written s).
Definition with_output_buffer (s : t) (b : list Z) : t :=
  mk (input_queue s) b (device_written s).

(** PortAudio's [paContinue]. *)
Inductive pa_flag := paContinue.

(** [_input_callback] (lines 99-102): [self.input_queue.put(in_data)] and
    then the return value to PortAudio; the callback returns only once
    the blocking [put] has completed. *)
Inductive callback_result :=
| CallbackReturns (s : t) (ret : pybytes * pa_flag)
| CallbackBlocks.

Definition _input_callback (s : t) (in_data : pybytes) : callback_result :=
  match PyQueue.put MAX_QUEUE_SIZE (input_queue s) in_data with
  | PyQueue.PutDone q => CallbackReturns (with_input s q) (in_data, paContinue)
  | PyQueue.PutBlocks => CallbackBlocks
  end.

(** [get_input_frame] (lines 104-109). *)
Definition get_input_frame (s : t) : option pybytes * t :=
  match PyQueue.get_nowait (input_queue s) with
  | None => (None, s)
  | Some (f, q) => (Some f, with_input s q)
  end.

(** [play_output] (lines 111-118); [write_ok] is whether
    [output_stream.write] returned or raised [OSError] (logged). *)
Definition play_output (write_ok : bool) (s : t) (pcm_data : pybytes) : t :=
  if truthy pcm_data then
    let buf := Deque.extend MAX_QUEUE_SIZE (output_buffer s) pcm_data in
    let written := if write_ok then device_written s ++ [pcm_data]
                   else device_written s in
    mk (input_queue s) buf written
  else s.

(** [output_buffer.clear()], line 215. *)
Definition clear_output (s : t) : t :=
  with_output_buffer s (Deque.clear (output_buffer s)).

End AudioIO.

(** ** Python exceptions that can leave a handler *)
Inductive py_exc :=
| KeyError
| AttributeError
| OSError
| OpusError
| WebSocketException
| ValueError
| RecursionError.

(** ** Control messages: [_handle_control] (lines 208-217) *)
Module Control.

(** Values produced by [json.loads]. *)
Inductive json :=
| JNull
| JBool (b : bool)
| JNum (n : Z)
| JStr (s : string)
| JArr (l : list json)
| JObj (kvs : list (string * json)).

(** Key lookup in a decoded object; [json.loads] keeps the last of
    duplicated keys. *)
Definition lookup (k : string) (kvs : list (string * json)) : option json :=
  match find (fun kv => String.eqb (fst kv) k) (rev kvs) with
  | Some (_, v) => Some v
  | None => None
  end.

(** Python [==] against a [str] literal. *)
Definition is_str (s : string) (v : option json) : bool :=
  match v with Some (JStr s') => String.eqb s' s | _ => false end.

Inductive outcome :=
| Ok (s : AudioIO.t)
| Raise (e : py_exc).

(** How [json.loads(message)] ends: a decoded value, the
    [json.JSONDecodeError] the handler catches, or another exception it
    does not catch ([ValueError] for an integer literal over the digit
    limit, [RecursionError] for too deep nesting, ...). *)
Inductive loads_result :=
| Loaded (j : json)
| JSONDecodeError
| LoadsRaises (e : py_exc).

(** [parsed] is the result of [json.loads(message)]:
    [json.JSONDecodeError] is caught and logged, any other exception of
    [json.loads] leaves the handler.
    [data.get] exists only on a [dict]: on any other decoded value it is
    an [AttributeError]; [data['state']] on a missing key is a
    [KeyError]; neither is caught. *)
Definition _handle_control (s : AudioIO.t) (parsed : loads_result) : outcome :=
  match parsed with
  | JSONDecodeError => Ok s
  | LoadsRaises e => Raise e
  | Loaded (JObj kvs) =>
      if is_str "tts" (lookup "type" kvs) then
        match lookup "state" kvs with
        | None => Raise KeyError
        | st => if is_str "stop" st then Ok (AudioIO.clear_output s) else Ok s
        end
      else Ok s
  | Loaded _ => Raise AttributeError
  end.

End Control.

(** ** Inbound messages and playback: [_on_message], [_handle_audio] *)
Module Inbound.

(** One inbound message with the results of the external calls it makes:
    a binary frame with the result of [codec.decode] (lines 61-67, [None]
    on [OpusError]) and whether the device write succeeded; or a text
    frame with the result of [json.loads]. *)
Inductive msg :=
| Binary (decoded : option pybytes) (write_ok : bool)
| Text (parsed : Control.loads_result).

(** [_handle_audio] (lines 203-206). *)
Definition _handle_audio (s : AudioIO.t) (decoded : option pybytes)
  (write_ok : bool) : AudioIO.t :=
  match decoded with
  | Some pcm => if truthy pcm then AudioIO.play_output write_ok s pcm else s
  | None => s
  end.

(** [_on_message] (lines 196-201). *)
Definition _on_message (s : AudioIO.t) (m : msg) : Control.outcome :=
  match m with
  | Binary d ok => Control.Ok (_handle_audio s d ok)
  | Text p => Control._handle_control s p
  end.

End Inbound.

(** ** [AudioClient]: flags, callbacks and cleanup *)
Module Client.

(** The observable state of an [AudioClient]: [is_running], the number of
    times [audio.release()] and [ws.close()] have been called, and how many
    send/keepalive thread pairs [_on_open] has started.  [self.ws] is set
    by [_init_websocket] in [__init__], so it is never [None] here. *)
Record t := mk {
  is_running : bool;
  releases : nat;
  ws_closes : nat;
  thread_pairs : nat
}.

Definition init : t := mk false 0 0 0.

(** [_cleanup] (lines 230-235). *)
Definition _cleanup (c : t) : t :=
  mk (is_running c) (S (releases c)) (S (ws_closes c)) (thread_pairs c).

Definition set_running (b : bool) (c : t) : t :=
  mk b (releases c) (ws_closes c) (thread_pairs c).

(** [_on_open] (lines 154-165). *)
Definition _on_open (c : t) : t :=
  let c' := set_running true c in
  mk (is_running c') (releases c') (ws_closes c') (S (thread_pairs c')).

(** [_on_error] (lines 219-222). *)
Definition _on_error (c : t) : t := set_running false c.

(** [_on_close] (lines 224-228). *)
Definition _on_close (c : t) : t := _cleanup (set_running false c).

(** One pass of the [_keepalive] loop (lines 187-194), with the outcome of
    the [PING] send; an exception from it is caught and logged as a
    warning.  [KExit] is the loop condition failing. *)
Inductive kctl := KContinue | KExit.

Definition _keepalive_step (c : t) (ping_ok : bool) : kctl * t :=
  if is_running c then
    if ping_ok then (KContinue, c) else (KContinue, c)
  else (KExit, c).

(** The events that reach the client's handlers: the transport's
    callbacks, and [KeyboardInterrupt] caught in [__main__], which calls
    [client._cleanup()] (lines 260-263). *)
Inductive event := EvOpen | EvError | EvClose | EvInterrupt.

Definition handle (c : t) (e : event) : t :=
  match e with
  | EvOpen => _on_open c
  | EvError => _on_error c
  | EvClose => _on_close c
  | EvInterrupt => _cleanup c
  end.

Definition run_events (c : t) (es : list event) : t := fold_left handle es c.

Definition closes_cleanup (e : event) : bool :=
  match e with EvClose | EvInterrupt => true | _ => false end.

End Client.

(** ** The keepalive thread interleaved with the client's handlers

    The client state is shared by the [_keepalive] thread and the
    transport's callbacks; an interleaving is one list of events, each a
    callback (or the [KeyboardInterrupt] handler) or one pass of the
    keepalive loop with the outcome of its [PING] send. *)
Module Keep.

Inductive event :=
| KClient (e : Client.event)
| KPing (ping_ok : bool).

Definition step (c : Client.t) (ev : event) : Client.t :=
  match ev with
  | KClient e => Client.handle c e
  | KPing ok => snd (Client._keepalive_step c ok)
  end.

Definition run (c : Client.t) (evs : list event) : Client.t := fold_left step evs c.

(** The callback events of an interleaving, in order. *)
Definition client_events (evs : list event) : list Client.event :=
  flat_map (fun ev => match ev with KClient e => [e] | KPing _ => [] end) evs.

End Keep.

(** ** The transport's message loop (websocket-client, outside this repository)

    [WebSocketApp] hands each inbound message to [_on_message] in arrival
    order; an exception a handler lets out is caught by the library, logged,
    and passed to [on_error], that is [AudioClient._on_error]; the next
    message is then dispatched as usual.  A handler raises before it changes
    anything ([KeyError] and [AttributeError] come before [clear()]). *)
Module Transport.

Fixpoint dispatch (s : AudioIO.t) (c : Client.t) (ms : list Inbound.msg)
  : AudioIO.t * Client.t :=
  match ms with
  | [] => (s, c)
  | m :: ms' =>
      match Inbound._on_message s m with
      | Control.Ok s' => dispatch s' c ms'
      | Control.Raise _ => dispatch s (Client._on_error c) ms'
      end
  end.

End Transport.

(** ** The send thread: [_send_loop] (lines 167-185)

    Clock readings are integers in milliseconds; the source's
    [FRAME_MS / 1000] seconds is [FRAME_MS] here. *)
Module Sender.

(** What the rest of the program and the OS contribute to one pass of
    the loop: the value of [self.is_running] at the loop test, the
    reading of [time.time()] used for [elapsed], whether [ws.send]
    returned or raised, and how long after waking [time.time()] is read
    again for [last_send]. *)
Record env := mkEnv {
  running : bool;
  now : Z;
  send_ok : bool;
  send_dur : Z
}.

Record t := mk {
  last_send : Z;
  audio : AudioIO.t;
  sent : list (Z * pybytes)
}.

(** [last_send = time.time()] on entry. *)
Definition start (t0 : Z) (a : AudioIO.t) : t := mk t0 a [].

Inductive sctl := SContinue | SBreak | SExit.

Section WithCodec.

(** [OpusCodec.encode] (lines 53-59): [None] when it caught an
[OpusError]. *)
Variable encode : pybytes -> option pybytes.

Definition sleep_time (e : env) (s : t) : Z := FRAME_MS - (now e - last_send s).

(** The argument passed to [time.sleep], or 0 when it is skipped. *)
Definition slept (e : env) (s : t) : Z :=
if 0 <? sleep_time e s then sleep_time e s else 0.

Definition wake (e : env) (s : t) : Z := now e + slept e s.

(** One pass of the [while self.is_running:] body.  An exception from
[ws.send] is caught by [except Exception] and ends the loop with
[break]. *)
Definition cycle (e : env) (s : t) : sctl * t :=
if negb (running e) then (SExit, s) else
let w := wake e s in
match AudioIO.get_input_frame (audio s) with
| (None, _) => (SContinue, s)
| (Some pcm, a') =>
  let dropped := mk (last_send s) a' (sent s) in
  if truthy pcm then
    match encode pcm with
    | Some opus =>
        if truthy opus then
          if send_ok e
          then (SContinue, mk (w + send_dur e) a' (sent s ++ [(w, opus)]))
          else (SBreak, dropped)
        else (SContinue, dropped)
    | None => (SContinue, dropped)
    end
  else (SContinue, dropped)
end.

Fixpoint loop (es : list env) (s : t) : sctl * t :=
match es with
| [] => (SContinue, s)
| e :: es' =>
  match cycle e s with
  | (SContinue, s') => loop es' s'
  | r => r
  end
end.

End WithCodec.

End Sender.

(** ** Reconnection: [AudioClient.run] (lines 237-256) *)
Module Run.

(** How one call of [ws.run_forever(...)] ends: it returns, or it raises;
    [opened] records whether [_on_open] was called during it. *)
Inductive rf := RFReturns (opened : bool) | RFRaises (opened : bool).

Inductive revent :=
| Attempt
| Opened
| Sleep (d : Z)
| MaxRetries.

Definition max_retries : nat := 5.

Definition opened_ev (o : bool) : list revent := if o then [Opened] else [].

(** The [while retries < max_retries: ... else:] loop, one [rf] per call
    of [run_forever]; the trace is cut short if the list runs out. *)
Fixpoint run_loop (retries : nat) (outs : list rf) : list revent :=
  if (retries <? max_retries)%nat then
    match outs with
    | [] => []
    | RFReturns o :: _ => Attempt :: opened_ev o
    | RFRaises o :: outs' =>
        let r := S retries in
        Attempt :: opened_ev o
          ++ Sleep (Z.min (2 ^ Z.of_nat r) 30) :: run_loop r outs'
    end
  else [MaxRetries].

Definition run (outs : list rf) : list revent := run_loop 0 outs.

Definition sleeps (tr : list revent) : list Z :=
  flat_map (fun ev => match ev with Sleep d => [d] | _ => [] end) tr.

Definition attempts (tr : list revent) : nat :=
  length (filter (fun ev => match ev with Attempt => true | _ => false end) tr).

End Run.

(** ** Repeated use of the [AudioIO] operations *)
Module Drive.

(** PortAudio calling [_input_callback] once per captured block; [None]
    when one of the calls does not return (its [put] blocks). *)
Fixpoint capture (s : AudioIO.t) (frames : list pybytes) : option AudioIO.t :=
  match frames with
  | [] => Some s
  | f :: fs =>
      match AudioIO._input_callback s f with
      | AudioIO.CallbackReturns s' _ => capture s' fs
      | AudioIO.CallbackBlocks => None
      end
  end.

(** [n] calls of [get_input_frame], keeping the frames it returns
    (the send loop's [if pcm_frame := ...] skips a [None]). *)
Fixpoint drain (n : nat) (s : AudioIO.t) : list pybytes * AudioIO.t :=
  match n with
  | O => ([], s)
  | S n' =>
      match AudioIO.get_input_frame s with
      | (Some f, s') => let (fs, s'') := drain n' s' in (f :: fs, s'')
      | (None, s') => drain n' s'
      end
  end.

(** Successive [play_output] calls, each with the outcome of its device
    write. *)
Definition play_all (s : AudioIO.t) (blocks : list (bool * pybytes)) : AudioIO.t :=
  fold_left (fun s' b => AudioIO.play_output (fst b) s' (snd b)) blocks s.

(** The blocks that reach the device stream: non-empty, and written
    without [OSError]. *)
Definition reaching_device (blocks : list (bool * pybytes)) : list pybytes :=
  map snd (filter (fun b => fst b && truthy (snd b)) blocks).

(** The PCM blocks that [_on_message] hands to the device, in order. *)
Definition played (ms : list Inbound.msg) : list pybytes :=
  flat_map (fun m => match m with
                     | Inbound.Binary (Some pcm) true => if truthy pcm then [pcm] else []
                     | _ => []
                     end) ms.

End Drive.

(** The value of [is_running] after a sequence of client events: set by the
    last [_on_open], cleared by the last [_on_error] or [_on_close];
    [KeyboardInterrupt] leaves it as it is. *)
Fixpoint last_running (b : bool) (es : list Client.event) : bool :=
  match es with
  | [] => b
  | Client.EvOpen :: es' => last_running true es'
  | (Client.EvError | Client.EvClose) :: es' => last_running false es'
  | Client.EvInterrupt :: es' => last_running b es'
  end.

(** The payload an encoder yields for a frame ([[]] when it fails). *)
Definition payload (encode : pybytes -> option pybytes) (f : pybytes) : pybytes :=
  match encode f with Some o => o | None => [] end.

(** * Properties *)

(** ** Bounded queue and bounded deque *)

Lemma put_bounded {A} (m : nat) (q : list A) (x : A) q' :
  (0 < m)%nat -> (length q <= m)%nat ->
  PyQueue.put m q x = PyQueue.PutDone q' -> (length q' <= m)%nat.
Proof.
  unfold PyQueue.put; intros Hm Hq.
  destruct (Nat.ltb_spec 0 m); [|lia].
  destruct (Nat.leb_spec m (length q)); simpl; intro Hp; inversion Hp; subst.
  rewrite length_app; simpl; lia.
Qed.

Lemma put_full_blocks {A} (m : nat) (q : list A) (x : A) :
  (0 < m)%nat -> length q = m -> PyQueue.put m q x = PyQueue.PutBlocks.
Proof.
  unfold PyQueue.put; intros Hm Hq.
  destruct (Nat.ltb_spec 0 m); [|lia].
  destruct (Nat.leb_spec m (length q)); [reflexivity|lia].
Qed.

Lemma offer_all_from_empty {A} (m : nat) (xs : list A) :
  (0 < m)%nat -> (m <= length xs)%nat ->
  PyQueue.offer_all m [] xs = (firstn m xs, skipn m xs).
Proof.
  intros Hm Hlen.
  assert (G : forall k (q ys : list A), length q = (m - k)%nat -> (k <= length ys)%nat ->
            (k <= m)%nat ->
            PyQueue.offer_all m q ys = (q ++ firstn k ys, skipn k ys)).
  { induction k as [|k IH]; intros q ys Hq Hys Hk.
    - destruct ys as [|y ys]; simpl.
      + rewrite app_nil_r; reflexivity.
      + rewrite put_full_blocks by lia. rewrite app_nil_r; reflexivity.
    - destruct ys as [|y ys]; simpl in Hys; [lia|].
      simpl. unfold PyQueue.put at 1.
      destruct (Nat.ltb_spec 0 m); [|lia].
      destruct (Nat.leb_spec m (length q)); [lia|]. simpl.
      rewrite IH by (rewrite ?length_app; simpl; lia).
      rewrite <- app_assoc; reflexivity. }
  rewrite (G m [] xs) by (simpl; lia). reflexivity.
Qed.

Lemma lastn_app {A} (m : nat) (l r : list A) :
  Deque.lastn m (Deque.lastn m l ++ r) = Deque.lastn m (l ++ r).
Proof.
  unfold Deque.lastn.
  rewrite !length_app, length_skipn, !skipn_app, skipn_skipn, length_skipn.
  f_equal; [f_equal; lia | f_equal; lia].
Qed.

Lemma append_lastn {A} (m : nat) (d : list A) (x : A) :
  (length d <= m)%nat -> Deque.append m d x = Deque.lastn m (d ++ [x]).
Proof.
  intros Hd. unfold Deque.append, Deque.lastn. rewrite length_app; simpl.
  destruct (Nat.ltb_spec m (length d + 1)).
  - replace (length d + 1 - m)%nat with 1%nat by lia.
    destruct (d ++ [x]); reflexivity.
  - replace (length d + 1 - m)%nat with 0%nat by lia. reflexivity.
Qed.

Lemma lastn_length {A} (m : nat) (l : list A) :
  (length (Deque.lastn m l) <= m)%nat.
Proof. unfold Deque.lastn. rewrite length_skipn. lia. Qed.

Lemma extend_lastn {A} (m : nat) (xs d : list A) :
  (length d <= m)%nat -> Deque.extend m d xs = Deque.lastn m (d ++ xs).
Proof.
  unfold Deque.extend. revert d.
  induction xs as [|x xs IH]; intros d Hd; simpl.
  - rewrite app_nil_r. unfold Deque.lastn.
    replace (length d - m)%nat with 0%nat by lia. reflexivity.
  - rewrite append_lastn by exact Hd.
    rewrite IH by apply lastn_length.
    rewrite lastn_app, <- app_assoc; reflexivity.
Qed.

Lemma extend_bounded {A} (m : nat) (xs d : list A) :
  (length d <= m)%nat -> (length (Deque.extend m d xs) <= m)%nat.
Proof. intros Hd. rewrite extend_lastn by exact Hd. apply lastn_length. Qed.

(** A captured block of [CHUNK] silent [paInt16] samples, and an input
    queue holding [MAX_QUEUE_SIZE] of them. *)
Definition silent_frame : pybytes := repeat 0 (Z.to_nat FRAME_BYTES).
Definition full_input : AudioIO.t :=
  AudioIO.mk (repeat silent_frame MAX_QUEUE_SIZE) [] [].

(** C1 (code evaluated at the failing input): when the input queue holds
    [MAX_QUEUE_SIZE] frames, [_input_callback] does not return to PortAudio:
    its [put] waits for a free slot instead of dropping the frame. *)
Theorem input_callback_full_queue_blocks :
  AudioIO._input_callback full_input silent_frame = AudioIO.CallbackBlocks.
Proof. reflexivity. Qed.

(** Thirty-one decoded [paInt16] frames of [CHUNK] samples; every byte
    of the [k]-th frame is [k]. *)
Definition frames31 : list pybytes :=
  map (fun k => repeat (Z.of_nat k) (Z.to_nat FRAME_BYTES)) (seq 0 31).

(** C3 (counterexample): playing 31 frames from an empty output buffer
    leaves in it the newest 30 bytes (from the last frame), neither the
    oldest 30 frames nor the oldest 30 bytes. *)
Lemma output_buffer_keeps_newest_frame_bytes :
  let s := Drive.play_all (AudioIO.mk [] [] []) (map (fun f => (true, f)) frames31) in
  AudioIO.output_buffer s = repeat 30 MAX_QUEUE_SIZE
  /\ AudioIO.output_buffer s <> concat (firstn MAX_QUEUE_SIZE frames31)
  /\ AudioIO.output_buffer s <> firstn MAX_QUEUE_SIZE (concat frames31).
Proof.
  intros s.
  assert (Hb : AudioIO.output_buffer s = repeat 30 MAX_QUEUE_SIZE)
    by (vm_compute; reflexivity).
  split; [exact Hb|]. rewrite Hb.
  split; intros Heq; apply (f_equal (hd 0)) in Heq; revert Heq; vm_compute; discriminate.
Qed.

Lemma capture_spec (frames : list pybytes) :
  forall s s', (length (AudioIO.input_queue s) <= MAX_QUEUE_SIZE)%nat ->
  Drive.capture s frames = Some s' ->
  AudioIO.input_queue s' = AudioIO.input_queue s ++ frames
  /\ (length (AudioIO.input_queue s') <= MAX_QUEUE_SIZE)%nat.
Proof.
  induction frames as [|f fs IH]; intros s s' Hs Hc; simpl in Hc.
  - inversion Hc; subst. rewrite app_nil_r. auto.
  - unfold AudioIO._input_callback in Hc.
    destruct (PyQueue.put MAX_QUEUE_SIZE (AudioIO.input_queue s) f) as [q|] eqn:Hp;
      [|discriminate].
    assert (Hq : q = AudioIO.input_queue s ++ [f]).
    { unfold PyQueue.put in Hp. destruct (_ && _); inversion Hp; reflexivity. }
    assert (Hl : (length q <= MAX_QUEUE_SIZE)%nat)
      by (eapply put_bounded; [unfold MAX_QUEUE_SIZE; lia | exact Hs | exact Hp]).
    destruct (IH (AudioIO.with_input s q) s' Hl Hc) as [H1 H2].
    simpl in H1. split; [rewrite H1, Hq, <- app_assoc; reflexivity | exact H2].
Qed.

(** C3 (amended): a [deque(maxlen=30)] such as the output buffer, holding
    at most 30 items and extended until more than 30 have been put in,
    holds exactly the 30 most recently appended items in arrival order:
    the oldest are dropped.  The input queue never holds more than 30
    frames, and a run of captures that completes appends its frames at
    the tail in arrival order. *)
Theorem bounded_buffers_keep_newest :
  (forall (A : Type) (d xs : list A),
     (length d <= MAX_QUEUE_SIZE)%nat ->
     (MAX_QUEUE_SIZE <= length d + length xs)%nat ->
     Deque.extend MAX_QUEUE_SIZE d xs
     = skipn (length d + length xs - MAX_QUEUE_SIZE) (d ++ xs)
     /\ length (Deque.extend MAX_QUEUE_SIZE d xs) = MAX_QUEUE_SIZE)
  /\ (forall (s s' : AudioIO.t) (frames : list pybytes),
        (length (AudioIO.input_queue s) <= MAX_QUEUE_SIZE)%nat ->
        Drive.capture s frames = Some s' ->
        AudioIO.input_queue s' = AudioIO.input_queue s ++ frames
        /\ (length (AudioIO.input_queue s') <= MAX_QUEUE_SIZE)%nat).
Proof.
  split.
  - intros A d xs Hd Hn.
    rewrite extend_lastn by exact Hd. unfold Deque.lastn.
    rewrite length_app. split; [reflexivity|].
    rewrite length_skipn, length_app. lia.
  - intros s s' frames Hs Hc. exact (capture_spec frames s s' Hs Hc).
Qed.

Lemma bounded_buffers_keep_newest_witness :
  Deque.extend MAX_QUEUE_SIZE [] (concat frames31)
  = skipn (0 + length (concat frames31) - MAX_QUEUE_SIZE) ([] ++ concat frames31)
  /\ AudioIO.input_queue (AudioIO.mk [silent_frame; silent_frame] [] [])
     = [] ++ [silent_frame; silent_frame].
Proof.
  split.
  - refine (proj1 (proj1 bounded_buffers_keep_newest Z [] (concat frames31) _ _));
      [simpl; lia | apply Nat.leb_le; vm_compute; reflexivity].
  - refine (proj1 (proj2 bounded_buffers_keep_newest
                     (AudioIO.mk [] [] []) (AudioIO.mk [silent_frame; silent_frame] [] [])
                     [silent_frame; silent_frame] _ _));
      [simpl; lia | reflexivity].
Defined.

(** ** The output buffer is write-only *)

(** Case analysis on every [match] and [if] left in the goal. *)
Ltac destruct_matches :=
  repeat match goal with
         | |- context [match ?x with _ => _ end] =>
             lazymatch x with
             | match _ with _ => _ end => fail
             | _ => destruct x
             end
         end.

Lemma played_cons (m : Inbound.msg) (ms : list Inbound.msg) :
  Drive.played (m :: ms) = Drive.played [m] ++ Drive.played ms.
Proof. unfold Drive.played. simpl. rewrite app_nil_r. reflexivity. Qed.

(** One inbound message: what reaches the device is read off the message
    alone, the input queue is not touched, a raising handler plays
    nothing, and the output buffer stays within 30 bytes. *)
Lemma on_message_spec (a : AudioIO.t) (m : Inbound.msg) :
  match Inbound._on_message a m with
  | Control.Ok a' =>
      AudioIO.device_written a' = AudioIO.device_written a ++ Drive.played [m]
      /\ AudioIO.input_queue a' = AudioIO.input_queue a
      /\ ((length (AudioIO.output_buffer a) <= MAX_QUEUE_SIZE)%nat ->
          (length (AudioIO.output_buffer a') <= MAX_QUEUE_SIZE)%nat)
  | Control.Raise _ => Drive.played [m] = []
  end.
Proof.
  destruct a as [q buf w].
  destruct m as [[pcm|] ok | p]; cbn [Inbound._on_message].
  - unfold Inbound._handle_audio, AudioIO.play_output, Drive.played; simpl.
    destruct (truthy pcm) eqn:Ht; simpl.
    + split; [destruct ok; simpl; rewrite ?app_nil_r; reflexivity|].
      split; [reflexivity|]. apply extend_bounded.
    + destruct ok; simpl; rewrite !app_nil_r; auto.
  - unfold Drive.played; simpl. rewrite app_nil_r. auto.
  - unfold Control._handle_control, Drive.played; destruct_matches; simpl;
      rewrite ?app_nil_r; solve [reflexivity | repeat split; auto; unfold MAX_QUEUE_SIZE; lia].
Qed.

Lemma dispatch_spec (ms : list Inbound.msg) :
  forall a c,
  AudioIO.device_written (fst (Transport.dispatch a c ms))
    = AudioIO.device_written a ++ Drive.played ms
  /\ AudioIO.input_queue (fst (Transport.dispatch a c ms)) = AudioIO.input_queue a
  /\ ((length (AudioIO.output_buffer a) <= MAX_QUEUE_SIZE)%nat ->
      (length (AudioIO.output_buffer (fst (Transport.dispatch a c ms)))
       <= MAX_QUEUE_SIZE)%nat).
Proof.
  induction ms as [|m ms IH]; intros a c.
  - unfold Drive.played; simpl. rewrite app_nil_r. auto.
  - rewrite (played_cons m ms). cbn [Transport.dispatch].
    pose proof (on_message_spec a m) as Hm.
    destruct (Inbound._on_message a m) as [a'|e].
    + destruct Hm as (Hw & Hq & Hb).
      destruct (IH a' c) as (H1 & H2 & H3).
      rewrite H1, H2, Hw, Hq, <- app_assoc. split; [reflexivity|]. split; auto.
    + destruct (IH a (Client._on_error c)) as (H1 & H2 & H3).
      rewrite Hm. simpl. auto.
Qed.

(** The control message [{"type": "tts", "state": "stop"}]. *)
Definition tts_stop : Control.json :=
  Control.JObj [("type"%string, Control.JStr "tts"); ("state"%string, Control.JStr "stop")].

(** C10: the output buffer is never read on the playback path.  For every
    sequence of inbound messages, dispatched as the transport does
    (including messages whose handler raises), the device stream receives
    exactly the decoded non-empty blocks of the binary messages that were
    written without error, in order, whatever the output buffer holds; the
    buffer, started empty, never holds more than 30 bytes, fewer than one
    frame; and a [tts]/[stop] message only empties the buffer, leaving what
    the device received unchanged. *)
Theorem output_buffer_write_only :
  (forall (ms : list Inbound.msg) (s : AudioIO.t) (b : list Z) (c : Client.t),
     AudioIO.device_written
       (fst (Transport.dispatch (AudioIO.with_output_buffer s b) c ms))
     = AudioIO.device_written (fst (Transport.dispatch s c ms)))
  /\ (forall (ms : list Inbound.msg) (s : AudioIO.t) (c : Client.t),
       AudioIO.device_written (fst (Transport.dispatch s c ms))
       = AudioIO.device_written s ++ Drive.played ms)
  /\ (forall (ms : list Inbound.msg) (s : AudioIO.t) (c : Client.t),
       (length (AudioIO.output_buffer
          (fst (Transport.dispatch (AudioIO.with_output_buffer s []) c ms)))
        <= MAX_QUEUE_SIZE)%nat)
  /\ Z.of_nat MAX_QUEUE_SIZE < FRAME_BYTES
  /\ (forall s : AudioIO.t,
       Inbound._on_message s (Inbound.Text (Control.Loaded tts_stop))
       = Control.Ok (AudioIO.with_output_buffer s [])
       /\ AudioIO.device_written (AudioIO.with_output_buffer s [])
          = AudioIO.device_written s).
Proof.
  split; [|split; [|split; [|split]]].
  - intros ms s b c. rewrite !(proj1 (dispatch_spec ms _ c)). reflexivity.
  - intros ms s c. exact (proj1 (dispatch_spec ms s c)).
  - intros ms s c. apply (proj2 (proj2 (dispatch_spec ms _ c))). simpl. lia.
  - vm_compute. reflexivity.
  - intros s. split; reflexivity.
Qed.

(** ** Control messages *)

(** C5 (code evaluated at the failing input): the text message
    [{"type": "tts"}] decodes to a [dict] without ["state"]; the lookup
    [data['state']] raises [KeyError], which the handler, catching only
    [json.JSONDecodeError], lets out.  A decoded non-[dict] such as [[]]
    raises [AttributeError] at [data.get]. *)
Theorem handle_control_malformed_raises (s : AudioIO.t) :
  Control._handle_control s
    (Control.Loaded (Control.JObj [("type"%string, Control.JStr "tts")]))
  = Control.Raise KeyError
  /\ Control._handle_control s (Control.Loaded (Control.JArr []))
     = Control.Raise AttributeError
  /\ Control._handle_control s Control.JSONDecodeError = Control.Ok s.
Proof. split; [|split]; reflexivity. Qed.

(** ** Keepalive *)

(** C2 (counterexample): once the connection is open, a failing [PING]
    send leaves the keepalive loop running, [is_running] set and nothing
    released. *)
Lemma keepalive_failure_keeps_running :
  let c := snd (Client._keepalive_step (Client._on_open Client.init) false) in
  Client.is_running c = true /\ Client.releases c = 0%nat
  /\ Client.ws_closes c = 0%nat.
Proof. simpl. split; [|split]; reflexivity. Qed.

(** C2 (amended): a failed [PING] send is only logged: a keepalive pass
    has the same result whether the send succeeds or fails, the loop goes
    on exactly while [is_running] is set, and in any interleaving of
    keepalive passes with the client's callbacks the client state
    ([is_running], calls of [audio.release()] and [ws.close()], threads
    started) is that of the callbacks alone. *)
Theorem keepalive_failure_only_logged :
  (forall c : Client.t, Client._keepalive_step c false = Client._keepalive_step c true)
  /\ (forall (c : Client.t) (ok : bool),
        fst (Client._keepalive_step c ok)
        = if Client.is_running c then Client.KContinue else Client.KExit)
  /\ (forall (evs : list Keep.event) (c : Client.t),
        Keep.run c evs = Client.run_events c (Keep.client_events evs)).
Proof.
  split; [|split].
  - intros c. unfold Client._keepalive_step. destruct (Client.is_running c); reflexivity.
  - intros c ok. unfold Client._keepalive_step.
    destruct (Client.is_running c), ok; reflexivity.
  - unfold Keep.run, Client.run_events.
    induction evs as [|[e|ok] evs IH]; intros c; simpl; [reflexivity | apply IH |].
    rewrite IH. unfold Client._keepalive_step.
    destruct (Client.is_running c), ok; reflexivity.
Qed.

(** ** Cleanup *)

(** C9 (counterexample): a transport-reported close followed by a
    [KeyboardInterrupt] in [__main__] runs [_cleanup] twice:
    [audio.release()] and [ws.close()] are each called a second time. *)
Lemma cleanup_twice_close_then_interrupt :
  let c := Client.run_events Client.init
             [Client.EvOpen; Client.EvClose; Client.EvInterrupt] in
  Client.releases c = 2%nat /\ Client.ws_closes c = 2%nat.
Proof. simpl. split; reflexivity. Qed.

Lemma run_events_counts (es : list Client.event) :
  forall c,
  Client.releases (Client.run_events c es)
    = (Client.releases c + length (filter Client.closes_cleanup es))%nat
  /\ Client.ws_closes (Client.run_events c es)
     = (Client.ws_closes c + length (filter Client.closes_cleanup es))%nat.
Proof.
  unfold Client.run_events.
  induction es as [|e es IH]; intros c; simpl; [lia|].
  destruct (IH (Client.handle c e)) as [H1 H2]. rewrite H1, H2.
  destruct e; simpl; lia.
Qed.

(** C9 (amended): [_cleanup] has no once-only guard: every
    transport-reported close and every [KeyboardInterrupt] caught in
    [__main__] runs it, calling [audio.release()] and [ws.close()] once
    more each time, and nothing else calls them. *)
Theorem cleanup_once_per_close_event (es : list Client.event) :
  Client.releases (Client.run_events Client.init es)
    = length (filter Client.closes_cleanup es)
  /\ Client.ws_closes (Client.run_events Client.init es)
     = length (filter Client.closes_cleanup es).
Proof. apply run_events_counts. Qed.

(** ** The send loop *)

(** Sending times at least one frame period apart. *)
Fixpoint spaced (l : list Z) : Prop :=
  match l with
  | x :: ((y :: _) as tl) => x + FRAME_MS <= y /\ spaced tl
  | _ => True
  end.

Definition pacer_inv (s : Sender.t) : Prop :=
  spaced (map fst (Sender.sent s))
  /\ Forall (fun x => x <= Sender.last_send s) (map fst (Sender.sent s)).

Lemma spaced_snoc (l : list Z) (y : Z) :
  spaced l -> Forall (fun x => x + FRAME_MS <= y) l -> spaced (l ++ [y]).
Proof.
  induction l as [|x l IH]; intros Hs Hf; simpl; [exact I|].
  inversion Hf as [|? ? Hx Hl]; subst.
  destruct l as [|x' l]; simpl; [split; [exact Hx | exact I]|].
  destruct Hs as [Hxx Hs]. split; [exact Hxx|].
  apply IH; assumption.
Qed.

Lemma slept_max (e : Sender.env) (s : Sender.t) :
  Sender.slept e s = Z.max 0 (FRAME_MS - (Sender.now e - Sender.last_send s)).
Proof.
  unfold Sender.slept, Sender.sleep_time.
  destruct (Z.ltb_spec 0 (FRAME_MS - (Sender.now e - Sender.last_send s))); lia.
Qed.

Lemma wake_after_period (e : Sender.env) (s : Sender.t) :
  Sender.last_send s + FRAME_MS <= Sender.wake e s.
Proof. unfold Sender.wake. rewrite slept_max. lia. Qed.

Section Pacing.

Variable encode : pybytes -> option pybytes.

(** Each pass either leaves [sent] and [last_send] alone, or sends one
    frame at its wake-up time after a successful [ws.send] and then sets
    [last_send]; it takes at most one frame from the input queue. *)
Lemma cycle_shape (e : Sender.env) (s : Sender.t) :
  let s' := snd (Sender.cycle encode e s) in
  ((Sender.sent s' = Sender.sent s /\ Sender.last_send s' = Sender.last_send s)
   \/ (exists opus, Sender.send_ok e = true
       /\ Sender.sent s' = Sender.sent s ++ [(Sender.wake e s, opus)]
       /\ Sender.last_send s' = Sender.wake e s + Sender.send_dur e))
  /\ (AudioIO.input_queue (Sender.audio s') = AudioIO.input_queue (Sender.audio s)
      \/ AudioIO.input_queue (Sender.audio s') = tl (AudioIO.input_queue (Sender.audio s))).
Proof.
  destruct s as [last [q buf w] sent0]. unfold Sender.cycle.
  destruct (Sender.running e); simpl; [|split; left; split; reflexivity].
  unfold AudioIO.get_input_frame, PyQueue.get_nowait; simpl.
  destruct q as [|pcm q]; simpl; [split; left; auto|].
  destruct (truthy pcm); simpl; [|split; [left; auto | right; reflexivity]].
  destruct (encode pcm) as [opus|]; simpl;
    [|split; [left; auto | right; reflexivity]].
  destruct (truthy opus); simpl; [|split; [left; auto | right; reflexivity]].
  destruct (Sender.send_ok e) eqn:Hok; simpl;
    [|split; [left; auto | right; reflexivity]].
  split; [right; exists opus; auto | right; reflexivity].
Qed.

Lemma cycle_inv (e : Sender.env) (s : Sender.t) :
  0 <= Sender.send_dur e -> pacer_inv s ->
  pacer_inv (snd (Sender.cycle encode e s)).
Proof.
  intros Hd [Hsp Hle].
  destruct (cycle_shape e s) as [[[Hs Hl] | (opus & _ & Hs & Hl)] _].
  - unfold pacer_inv. rewrite Hs, Hl. split; assumption.
  - pose proof (wake_after_period e s) as Hw. unfold FRAME_MS in Hw.
    unfold pacer_inv. rewrite Hs, Hl, map_app. simpl. split.
    + apply spaced_snoc; [exact Hsp|].
      eapply Forall_impl; [|exact Hle]. simpl; intros; unfold FRAME_MS; lia.
    + apply Forall_app; split.
      * eapply Forall_impl; [|exact Hle]. simpl; intros; lia.
      * constructor; [lia | constructor].
Qed.

Lemma loop_inv (es : list Sender.env) :
  Forall (fun e => 0 <= Sender.send_dur e) es ->
  forall s, pacer_inv s -> pacer_inv (snd (Sender.loop encode es s)).
Proof.
  induction es as [|e es IH]; intros Hes s Hs; simpl; [exact Hs|].
  inversion Hes as [|? ? He Hrest]; subst.
  pose proof (cycle_inv e s He Hs) as Hc.
  destruct (Sender.cycle encode e s) as [[] s'] eqn:Ec; simpl in *;
    [apply IH; assumption | exact Hc | exact Hc].
Qed.

End Pacing.

(** An encoder that always produces one OPUS packet, an environment whose
    [ws.send] raises and one whose [ws.send] succeeds, and a send loop
    entered at t = 1000 ms with two captured frames queued. *)
Definition enc_one : pybytes -> option pybytes := fun _ => Some [252].
Definition env_send_fails : Sender.env := Sender.mkEnv true 1000 false 1.
Definition env_send_ok : Sender.env := Sender.mkEnv true 1061 true 1.
Definition sender_two_frames : Sender.t :=
  Sender.start 1000 (AudioIO.mk [silent_frame; silent_frame] [] []).

(** C6 (counterexample): a single failing [ws.send] ends the send loop:
    the next pass never runs, the second queued frame is never sent. *)
Lemma single_send_failure_ends_loop :
  let r := Sender.loop enc_one [env_send_fails; env_send_ok] sender_two_frames in
  fst r = Sender.SBreak /\ Sender.sent (snd r) = []
  /\ length (AudioIO.input_queue (Sender.audio (snd r))) = 1%nat.
Proof. vm_compute. split; [|split]; reflexivity. Qed.

(** C6 (amended): a frame whose encoding fails ([OpusCodec.encode]
    returned [None]) is dropped and the loop goes on; a frame whose
    [ws.send] raises is dropped too, the exception is logged and caught
    inside the loop, and the loop ends ([break]). *)
Theorem send_loop_frame_errors (encode : pybytes -> option pybytes)
    (e : Sender.env) (s : Sender.t) (pcm : pybytes) (q : list pybytes) :
  Sender.running e = true ->
  AudioIO.input_queue (Sender.audio s) = pcm :: q ->
  truthy pcm = true ->
  (encode pcm = None ->
   Sender.cycle encode e s
   = (Sender.SContinue, Sender.mk (Sender.last_send s)
                          (AudioIO.with_input (Sender.audio s) q) (Sender.sent s)))
  /\ (forall opus, encode pcm = Some opus -> truthy opus = true ->
      Sender.send_ok e = false ->
      Sender.cycle encode e s
      = (Sender.SBreak, Sender.mk (Sender.last_send s)
                          (AudioIO.with_input (Sender.audio s) q) (Sender.sent s))).
Proof.
  intros Hr Hq Hp.
  destruct s as [last [q0 buf w] sent0]; simpl in Hq; subst q0.
  unfold Sender.cycle; rewrite Hr; simpl. rewrite Hp.
  split.
  - intros He; rewrite He; reflexivity.
  - intros opus He Ho Hok; rewrite He, Ho, Hok; reflexivity.
Qed.

Lemma send_loop_frame_errors_witness :
  Sender.cycle enc_one env_send_fails sender_two_frames
  = (Sender.SBreak, Sender.mk 1000 (AudioIO.mk [silent_frame] [] []) []).
Proof.
  apply (proj2 (send_loop_frame_errors enc_one env_send_fails sender_two_frames
                  silent_frame [silent_frame] eq_refl eq_refl eq_refl) [252]);
    reflexivity.
Defined.

(** C8: one pass of the pacing loop sleeps [max 0 (60 - elapsed)]; with an
    empty queue it changes nothing (no [last_send] update); a frame whose
    encoding fails is taken off the queue and not retried; [last_send]
    changes only together with a successful send, to the clock reading
    after it; at most one frame is taken.  Over a whole run of the loop,
    any two consecutive sends are at least one 60 ms period apart. *)
Theorem frame_pacer_cycle (encode : pybytes -> option pybytes)
    (e : Sender.env) (s : Sender.t) (es : list Sender.env) (t0 : Z)
    (a : AudioIO.t) :
  Sender.running e = true ->
  Forall (fun e' => 0 <= Sender.send_dur e') es ->
  Sender.slept e s = Z.max 0 (FRAME_MS - (Sender.now e - Sender.last_send s))
  /\ (AudioIO.input_queue (Sender.audio s) = [] ->
      Sender.cycle encode e s = (Sender.SContinue, s))
  /\ (forall pcm q, AudioIO.input_queue (Sender.audio s) = pcm :: q ->
      encode pcm = None ->
      Sender.cycle encode e s
      = (Sender.SContinue, Sender.mk (Sender.last_send s)
                             (AudioIO.with_input (Sender.audio s) q) (Sender.sent s)))
  /\ (let s' := snd (Sender.cycle encode e s) in
      ((Sender.sent s' = Sender.sent s /\ Sender.last_send s' = Sender.last_send s)
       \/ (exists opus, Sender.send_ok e = true
           /\ Sender.sent s' = Sender.sent s ++ [(Sender.wake e s, opus)]
           /\ Sender.last_send s' = Sender.wake e s + Sender.send_dur e))
      /\ (AudioIO.input_queue (Sender.audio s') = AudioIO.input_queue (Sender.audio s)
          \/ AudioIO.input_queue (Sender.audio s') = tl (AudioIO.input_queue (Sender.audio s))))
  /\ spaced (map fst (Sender.sent (snd (Sender.loop encode es (Sender.start t0 a))))).
Proof.
  intros Hr Hes.
  split; [apply slept_max|].
  split.
  { destruct s as [last [q0 buf w] sent0]; simpl; intros ->.
    unfold Sender.cycle; rewrite Hr; reflexivity. }
  split.
  { intros pcm q Hq He.
    destruct s as [last [q0 buf w] sent0]; simpl in Hq; subst q0.
    unfold Sender.cycle; rewrite Hr; simpl.
    destruct (truthy pcm); [rewrite He|]; reflexivity. }
  split; [apply cycle_shape|].
  apply (loop_inv encode es Hes). split; [exact I | constructor].
Qed.

Lemma frame_pacer_cycle_witness :
  spaced (map fst (Sender.sent
    (snd (Sender.loop enc_one [env_send_ok; env_send_ok]
            (Sender.start 1000 (AudioIO.mk [silent_frame; silent_frame] [] [])))))).
Proof.
  refine (proj2 (proj2 (proj2 (proj2
    (frame_pacer_cycle enc_one env_send_ok sender_two_frames
       [env_send_ok; env_send_ok] 1000
       (AudioIO.mk [silent_frame; silent_frame] [] []) eq_refl _))))).
  repeat constructor; vm_compute; discriminate.
Defined.

(** ** Reconnection backoff *)

(** C4: when every call of [run_forever] raises at once, [run] makes five
    attempts, sleeping 2, 4, 8, 16 and then 30 seconds after them
    ([min(2^k, 30)] after the k-th failure), and then leaves the loop with
    the "maximum retries exceeded" error, making no further attempt. *)
Theorem backoff_schedule_all_fail (n : nat) :
  (5 <= n)%nat ->
  Run.run (repeat (Run.RFRaises false) n)
  = [Run.Attempt; Run.Sleep 2; Run.Attempt; Run.Sleep 4;
     Run.Attempt; Run.Sleep 8; Run.Attempt; Run.Sleep 16;
     Run.Attempt; Run.Sleep 30; Run.MaxRetries].
Proof.
  intros Hn.
  do 5 (destruct n as [|n]; [lia|]).
  destruct n; reflexivity.
Qed.

Lemma backoff_schedule_all_fail_witness :
  (5 <= 7)%nat /\
  Run.sleeps (Run.run (repeat (Run.RFRaises false) 7)) = [2; 4; 8; 16; 30].
Proof.
  split; [lia|].
  rewrite (backoff_schedule_all_fail 7) by lia. reflexivity.
Defined.

(** C7 (counterexample): a first call that fails, then a call that
    reaches [_on_open] and fails afterwards: the delay after the second
    failure is 4 s, not a restarted 2 s. *)
Lemma open_does_not_reset_retries :
  let tr := Run.run [Run.RFRaises false; Run.RFRaises true] in
  In Run.Opened tr /\ Run.sleeps tr = [2; 4]
  /\ nth 1 (Run.sleeps tr) 0 <> Z.min (2 ^ 1) 30.
Proof. vm_compute. split; [right; right; right; left; reflexivity | split; [reflexivity | discriminate]]. Qed.

Definition forget_open (o : Run.rf) : Run.rf :=
  match o with
  | Run.RFReturns _ => Run.RFReturns false
  | Run.RFRaises _ => Run.RFRaises false
  end.

(** The delays still available with [retries] failures counted. *)
Definition schedule (retries : nat) : list Z :=
  map (fun k => Z.min (2 ^ Z.of_nat k) 30)
      (seq (S retries) (Run.max_retries - retries)).

Lemma sleeps_app (l1 l2 : list Run.revent) :
  Run.sleeps (l1 ++ l2) = Run.sleeps l1 ++ Run.sleeps l2.
Proof. unfold Run.sleeps. apply flat_map_app. Qed.

Lemma sleeps_opened (o : bool) : Run.sleeps (Run.opened_ev o) = [].
Proof. destruct o; reflexivity. Qed.

Lemma run_loop_forget_open (outs : list Run.rf) :
  forall r, Run.sleeps (Run.run_loop r outs)
            = Run.sleeps (Run.run_loop r (map forget_open outs)).
Proof.
  induction outs as [|o outs IH]; intros r; simpl; [reflexivity|].
  destruct (r <? Run.max_retries)%nat; [|reflexivity].
  destruct o as [o|o]; simpl; rewrite ?sleeps_app, ?sleeps_opened; simpl;
    [reflexivity|].
  rewrite IH. reflexivity.
Qed.

Lemma run_loop_prefix (outs : list Run.rf) :
  forall r, exists n, Run.sleeps (Run.run_loop r outs) = firstn n (schedule r).
Proof.
  induction outs as [|o outs IH]; intros r; simpl.
  - destruct (r <? Run.max_retries)%nat; exists 0%nat; reflexivity.
  - destruct (Nat.ltb_spec r Run.max_retries) as [Hr|Hr];
      [|exists 0%nat; reflexivity].
    destruct o as [o|o]; simpl; rewrite ?sleeps_app, ?sleeps_opened; simpl;
      [exists 0%nat; reflexivity|].
    destruct (IH (S r)) as [n Hn]. rewrite Hn.
    exists (S n). unfold schedule.
    replace (Run.max_retries - r)%nat with (S (Run.max_retries - S r))
      by (unfold Run.max_retries in *; lia).
    reflexivity.
Qed.

(** C7 (amended): reaching Open does not reset the retry counter.
    [retries] is local to [run] and grows by one each time [run_forever]
    raises; the delays of a run are the same whether or not connections
    opened in between, and are always a prefix of 2, 4, 8, 16, 30 (the
    delay after the k-th failure since [run] started is [min(2^k, 30)]). *)
Theorem retries_not_reset_on_open (outs : list Run.rf) :
  Run.sleeps (Run.run outs) = Run.sleeps (Run.run (map forget_open outs))
  /\ exists n, Run.sleeps (Run.run outs) = firstn n [2; 4; 8; 16; 30].
Proof.
  split; [apply run_loop_forget_open|].
  exact (run_loop_prefix outs 0).
Qed.

(** * Further properties of the client *)

(** ** Input queue: capture then consume *)

Lemma capture_below_capacity (frames : list pybytes) :
  forall s, (length (AudioIO.input_queue s) + length frames <= MAX_QUEUE_SIZE)%nat ->
  exists s', Drive.capture s frames = Some s'
  /\ AudioIO.input_queue s' = AudioIO.input_queue s ++ frames
  /\ AudioIO.output_buffer s' = AudioIO.output_buffer s
  /\ AudioIO.device_written s' = AudioIO.device_written s.
Proof.
  induction frames as [|f fs IH]; intros s Hs; simpl.
  - exists s. rewrite app_nil_r. auto.
  - unfold AudioIO._input_callback, PyQueue.put.
    simpl in Hs.
    destruct (Nat.leb_spec MAX_QUEUE_SIZE (length (AudioIO.input_queue s)));
      [lia|].
    rewrite andb_false_r.
    destruct (IH (AudioIO.with_input s (AudioIO.input_queue s ++ [f])))
      as (s' & Hc & Hq & Hb & Hw).
    { simpl. rewrite length_app; simpl; lia. }
    exists s'. rewrite Hc, Hq, Hb, Hw. simpl.
    rewrite <- app_assoc. auto.
Qed.

Lemma drain_spec (n : nat) :
  forall s, fst (Drive.drain n s) = firstn n (AudioIO.input_queue s)
  /\ AudioIO.input_queue (snd (Drive.drain n s)) = skipn n (AudioIO.input_queue s).
Proof.
  induction n as [|n IH]; intros s; simpl; [auto|].
  unfold AudioIO.get_input_frame, PyQueue.get_nowait.
  destruct (AudioIO.input_queue s) as [|f q] eqn:Hq.
  - destruct (IH s) as [H1 H2]. rewrite H1, H2, Hq.
    rewrite firstn_nil, skipn_nil. auto.
  - destruct (IH (AudioIO.with_input s q)) as [H1 H2].
    destruct (Drive.drain n (AudioIO.with_input s q)) as [fs s''] eqn:Hd.
    simpl in *. rewrite H1. auto.
Qed.

(** X1: while the input queue has room for them, captured frames are all
    accepted by [_input_callback] (which returns them to PortAudio with
    [paContinue]) and appended at the tail; [n] calls of [get_input_frame]
    then return the first [n] queued frames in arrival order, leave the
    rest queued, and return nothing once the queue is empty. *)
Theorem input_queue_fifo (s : AudioIO.t) (frames : list pybytes) (n : nat) :
  (length (AudioIO.input_queue s) + length frames <= MAX_QUEUE_SIZE)%nat ->
  exists s', Drive.capture s frames = Some s'
  /\ fst (Drive.drain n s') = firstn n (AudioIO.input_queue s ++ frames)
  /\ AudioIO.input_queue (snd (Drive.drain n s'))
     = skipn n (AudioIO.input_queue s ++ frames).
Proof.
  intros H.
  destruct (capture_below_capacity frames s H) as (s' & Hc & Hq & _ & _).
  exists s'. split; [exact Hc|].
  rewrite <- Hq. apply drain_spec.
Qed.

Lemma input_queue_fifo_witness :
  exists s', Drive.capture (AudioIO.mk [] [] []) [[1]; [2]; [3]] = Some s'
  /\ fst (Drive.drain 5 s') = firstn 5 ([] ++ [[1]; [2]; [3]])
  /\ AudioIO.input_queue (snd (Drive.drain 5 s')) = skipn 5 ([] ++ [[1]; [2]; [3]]).
Proof.
  apply (input_queue_fifo (AudioIO.mk [] [] []) [[1]; [2]; [3]] 5).
  vm_compute. lia.
Defined.

(** ** Output side: a sequence of [play_output] calls *)

(** X2: after any sequence of [play_output] calls, started with at most 30
    bytes buffered, the output buffer holds exactly the last 30 bytes of the
    old contents followed by every played block, and the device stream has
    received, in order, exactly the non-empty blocks whose write did not
    raise [OSError]; the input queue is untouched. *)
Theorem play_all_spec (s : AudioIO.t) (blocks : list (bool * pybytes)) :
  (length (AudioIO.output_buffer s) <= MAX_QUEUE_SIZE)%nat ->
  AudioIO.output_buffer (Drive.play_all s blocks)
    = Deque.lastn MAX_QUEUE_SIZE (AudioIO.output_buffer s ++ concat (map snd blocks))
  /\ AudioIO.device_written (Drive.play_all s blocks)
     = AudioIO.device_written s ++ Drive.reaching_device blocks
  /\ AudioIO.input_queue (Drive.play_all s blocks) = AudioIO.input_queue s.
Proof.
  unfold Drive.play_all, Drive.reaching_device. revert s.
  induction blocks as [|[ok pcm] bs IH]; intros s Hs; simpl.
  - rewrite !app_nil_r. split; [|auto].
    unfold Deque.lastn. replace (length (AudioIO.output_buffer s) - MAX_QUEUE_SIZE)%nat
      with 0%nat by lia. reflexivity.
  - assert (Hb : (length (AudioIO.output_buffer (AudioIO.play_output ok s pcm))
                  <= MAX_QUEUE_SIZE)%nat).
    { unfold AudioIO.play_output. destruct (truthy pcm); simpl;
        [apply extend_bounded|]; exact Hs. }
    destruct (IH _ Hb) as (H1 & H2 & H3). rewrite H1, H2, H3.
    unfold AudioIO.play_output.
    destruct (truthy pcm) eqn:Ht; simpl.
    + rewrite extend_lastn by exact Hs. rewrite lastn_app, app_assoc.
      split; [reflexivity|].
      destruct ok; simpl; [rewrite <- app_assoc|]; auto.
    + destruct pcm; [|discriminate]. simpl.
      destruct ok; simpl; auto.
Qed.

Lemma play_all_spec_witness :
  AudioIO.output_buffer (Drive.play_all (AudioIO.mk [] [] [])
                           [(true, [1; 2]); (false, [3]); (true, [])])
  = Deque.lastn MAX_QUEUE_SIZE ([] ++ concat (map snd [(true, [1; 2]); (false, [3]); (true, [])])).
Proof.
  exact (proj1 (play_all_spec (AudioIO.mk [] [] [])
                  [(true, [1; 2]); (false, [3]); (true, [])]
                  (Nat.le_0_l _))).
Defined.

(** ** Inbound dispatch *)

(** X4: for every sequence of inbound messages, dispatched as the
    transport does (a handler exception is passed to [_on_error] and the
    next message is still handled), the device stream receives, in arrival
    order, exactly the blocks of the binary messages that decoded to
    non-empty PCM and were written without [OSError]; the input queue is
    not touched. *)
Theorem dispatch_playback_order (s : AudioIO.t) (c : Client.t) (ms : list Inbound.msg) :
  AudioIO.device_written (fst (Transport.dispatch s c ms))
    = AudioIO.device_written s ++ Drive.played ms
  /\ AudioIO.input_queue (fst (Transport.dispatch s c ms)) = AudioIO.input_queue s.
Proof.
  destruct (dispatch_spec ms s c) as (H1 & H2 & _). auto.
Qed.

(** ** Send loop: order and start-up delay *)

Section SendOrder.

Variable encode : pybytes -> option pybytes.

(** A frame the loop sends: non-empty, and encoded to a non-empty packet. *)
Definition sendable (f : pybytes) : Prop :=
  truthy f = true /\ exists o, encode f = Some o /\ truthy o = true.

(** X5: while [is_running] holds and every [ws.send] succeeds, and every
    queued frame encodes to a non-empty packet, [k] passes of the send
    loop take the first [k] queued frames (fewer if the queue runs dry)
    and send their encodings in queue order; the loop keeps running and
    the rest stays queued. *)
Theorem send_loop_fifo (es : list Sender.env) (s : Sender.t) :
  Forall (fun e => Sender.running e = true /\ Sender.send_ok e = true) es ->
  Forall sendable (AudioIO.input_queue (Sender.audio s)) ->
  fst (Sender.loop encode es s) = Sender.SContinue
  /\ map snd (Sender.sent (snd (Sender.loop encode es s)))
     = map snd (Sender.sent s)
       ++ map (payload encode) (firstn (length es) (AudioIO.input_queue (Sender.audio s)))
  /\ AudioIO.input_queue (Sender.audio (snd (Sender.loop encode es s)))
     = skipn (length es) (AudioIO.input_queue (Sender.audio s)).
Proof.
  revert s. induction es as [|e es IH]; intros s Hes Hq; simpl.
  - rewrite app_nil_r. auto.
  - inversion Hes as [|? ? [Hr Hok] Hrest]; subst.
    destruct s as [last [q buf w] sent0]; simpl in Hq |- *.
    destruct q as [|f q].
    + set (s0 := Sender.mk last (AudioIO.mk [] buf w) sent0).
      assert (Ec : Sender.cycle encode e s0 = (Sender.SContinue, s0))
        by (unfold Sender.cycle; rewrite Hr; reflexivity).
      rewrite Ec.
      destruct (IH s0 Hrest Hq) as (H1 & H2 & H3).
      simpl in *. rewrite firstn_nil, skipn_nil in *.
      rewrite H1, H2, H3. auto.
    + inversion Hq as [|? ? [Hf (o & He & Ho)] Hq']; subst.
      set (s0 := Sender.mk last (AudioIO.mk (f :: q) buf w) sent0).
      set (s1 := Sender.mk (Sender.wake e s0 + Sender.send_dur e)
                   (AudioIO.mk q buf w) (sent0 ++ [(Sender.wake e s0, o)])).
      assert (Ec : Sender.cycle encode e s0 = (Sender.SContinue, s1))
        by (unfold Sender.cycle; rewrite Hr; simpl; rewrite Hf, He, Ho, Hok;
            reflexivity).
      rewrite Ec.
      destruct (IH s1 Hrest Hq') as (H1 & H2 & H3).
      simpl in *. rewrite H1, H2, H3.
      rewrite map_app, <- app_assoc. simpl.
      unfold payload. rewrite He. auto.
Qed.

(** X6: the loop sends nothing earlier than one frame period after it
    started ([last_send] is initialised to the entry time). *)
Theorem send_loop_first_period (es : list Sender.env) (t0 : Z) (a : AudioIO.t) :
  Forall (fun e => 0 <= Sender.send_dur e) es ->
  Forall (fun x => t0 + FRAME_MS <= x)
    (map fst (Sender.sent (snd (Sender.loop encode es (Sender.start t0 a))))).
Proof.
  intros Hes.
  assert (G : forall es' s, Forall (fun e => 0 <= Sender.send_dur e) es' ->
            t0 <= Sender.last_send s ->
            Forall (fun x => t0 + FRAME_MS <= x) (map fst (Sender.sent s)) ->
            t0 <= Sender.last_send (snd (Sender.loop encode es' s))
            /\ Forall (fun x => t0 + FRAME_MS <= x)
                 (map fst (Sender.sent (snd (Sender.loop encode es' s))))).
  { induction es' as [|e es' IH]; intros s Hd Hl Hf; simpl; [auto|].
    inversion Hd as [|? ? He Hd']; subst.
    pose proof (wake_after_period e s) as Hw. unfold FRAME_MS in *.
    assert (Hc : t0 <= Sender.last_send (snd (Sender.cycle encode e s))
                 /\ Forall (fun x => t0 + 60 <= x)
                      (map fst (Sender.sent (snd (Sender.cycle encode e s))))).
    { destruct (cycle_shape encode e s) as [[[Hs Hl'] | (o & _ & Hs & Hl')] _];
        rewrite Hs, Hl'; [auto|].
      split; [lia|]. rewrite map_app. apply Forall_app. split; [exact Hf|].
      simpl. constructor; [lia | constructor]. }
    destruct (Sender.cycle encode e s) as [[] s'] eqn:Ec; simpl in *;
      [apply IH; tauto | exact Hc | exact Hc]. }
  apply (G es (Sender.start t0 a) Hes); simpl; [lia | constructor].
Qed.

End SendOrder.

Lemma send_loop_fifo_witness :
  map snd (Sender.sent (snd (Sender.loop enc_one [env_send_ok; env_send_ok; env_send_ok]
                                sender_two_frames)))
  = [[252]; [252]].
Proof.
  assert (H1 : Forall (fun e => Sender.running e = true /\ Sender.send_ok e = true)
                [env_send_ok; env_send_ok; env_send_ok])
    by (repeat constructor).
  assert (H2 : Forall (sendable enc_one)
                 (AudioIO.input_queue (Sender.audio sender_two_frames)))
    by (repeat constructor; exists [252]; split; reflexivity).
  rewrite (proj1 (proj2 (send_loop_fifo enc_one [env_send_ok; env_send_ok; env_send_ok]
                           sender_two_frames H1 H2))).
  reflexivity.
Defined.

Lemma send_loop_first_period_witness :
  Forall (fun x => 1000 + FRAME_MS <= x)
    (map fst (Sender.sent (snd (Sender.loop enc_one [env_send_ok; env_send_fails]
                                  (Sender.start 1000 (AudioIO.mk [[1]] [] [])))))).
Proof.
  apply send_loop_first_period.
  repeat constructor; vm_compute; discriminate.
Defined.

(** ** Reconnection loop: bounds *)

Definition is_raise (o : Run.rf) : bool :=
  match o with Run.RFRaises _ => true | Run.RFReturns _ => false end.

Lemma attempts_app (l1 l2 : list Run.revent) :
  Run.attempts (l1 ++ l2) = (Run.attempts l1 + Run.attempts l2)%nat.
Proof. unfold Run.attempts. rewrite filter_app, length_app. reflexivity. Qed.

Lemma attempts_opened (o : bool) : Run.attempts (Run.opened_ev o) = 0%nat.
Proof. destruct o; reflexivity. Qed.

Lemma attempts_attempt (l : list Run.revent) :
  Run.attempts (Run.Attempt :: l) = S (Run.attempts l).
Proof. reflexivity. Qed.

Lemma attempts_sleep (d : Z) (l : list Run.revent) :
  Run.attempts (Run.Sleep d :: l) = Run.attempts l.
Proof. reflexivity. Qed.

Lemma run_loop_bounds (outs : list Run.rf) :
  forall r,
  (Run.attempts (Run.run_loop r outs) <= Run.max_retries - r)%nat
  /\ (In Run.MaxRetries (Run.run_loop r outs)
      <-> (Run.max_retries - r <= length outs)%nat
          /\ Forall (fun o => is_raise o = true) (firstn (Run.max_retries - r) outs)).
Proof.
  induction outs as [|o outs IH]; intros r; cbn [Run.run_loop].
  - destruct (Nat.ltb_spec r Run.max_retries) as [Hr|Hr].
    + split; [cbn; lia|]. split; [cbn; tauto|]. intros [H _]. cbn [length] in H. lia.
    + replace (Run.max_retries - r)%nat with 0%nat by lia.
      split; [cbn; lia|].
      split; [intros _; split; [lia | constructor] | intros _; left; reflexivity].
  - destruct (Nat.ltb_spec r Run.max_retries) as [Hr|Hr].
    + replace (Run.max_retries - r)%nat with (S (Run.max_retries - S r)) by lia.
      cbn [firstn length]. destruct o as [op|op].
      * rewrite attempts_attempt, attempts_opened. split; [lia|].
        split; [destruct op; cbn; intros H; repeat destruct H as [H|H]; try discriminate; contradiction|].
        intros [_ Hf]. inversion Hf as [|? ? Hx _]. discriminate.
      * rewrite attempts_attempt, attempts_app, attempts_opened, attempts_sleep.
        destruct (IH (S r)) as [Ha Hi]. split; [lia|].
        split.
        -- intros H. destruct H as [H|H]; [discriminate|].
           apply in_app_iff in H. destruct H as [H|H].
           ++ destruct op; cbn in H; repeat destruct H as [H|H]; try discriminate; contradiction.
           ++ destruct H as [H|H]; [discriminate|].
              apply Hi in H. destruct H as [Hl Hf].
              split; [lia | constructor; [reflexivity | exact Hf]].
        -- intros [Hl Hf]. right. apply in_app_iff. right. right.
           apply Hi. inversion Hf; subst. split; [lia | assumption].
    + replace (Run.max_retries - r)%nat with 0%nat by lia.
      split; [cbn; lia|].
      split; [intros _; split; [lia | constructor] | intros _; left; reflexivity].
Qed.

Lemma run_loop_returns (pre : list Run.rf) :
  forall r o post,
  Forall (fun x => is_raise x = true) pre ->
  (r + length pre < Run.max_retries)%nat ->
  Run.run_loop r (pre ++ Run.RFReturns o :: post) = Run.run_loop r (pre ++ [Run.RFReturns o])
  /\ Run.attempts (Run.run_loop r (pre ++ [Run.RFReturns o])) = S (length pre)
  /\ ~ In Run.MaxRetries (Run.run_loop r (pre ++ [Run.RFReturns o])).
Proof.
  induction pre as [|x pre IH]; intros r o post Hf Hr; cbn [app length] in *.
  - cbn [Run.run_loop]. destruct (Nat.ltb_spec r Run.max_retries) as [Hlt|Hge]; [|lia].
    rewrite attempts_attempt, attempts_opened.
    split; [reflexivity | split; [reflexivity|]].
    destruct o; cbn; intros H; repeat destruct H as [H|H]; try discriminate; contradiction.
  - inversion Hf as [|? ? Hx Hf']; subst.
    destruct x as [xo|xo]; [discriminate|].
    cbn [Run.run_loop]. destruct (Nat.ltb_spec r Run.max_retries) as [Hlt|Hge]; [|lia].
    destruct (IH (S r) o post Hf') as (H1 & H2 & H3); [lia|].
    rewrite H1, attempts_attempt, attempts_app, attempts_opened, attempts_sleep, H2.
    split; [reflexivity | split; [reflexivity|]].
    intros H. destruct H as [H|H]; [discriminate|].
    apply in_app_iff in H. destruct H as [H|H].
    + destruct xo; cbn in H; repeat destruct H as [H|H]; try discriminate; contradiction.
    + destruct H as [H|H]; [discriminate | exact (H3 H)].
Qed.

(** X7: [run] calls [run_forever] at most [max_retries] = 5 times, and it
    reports "maximum retries exceeded" exactly when the first five calls
    all raise; a call that returns ends [run] without that report: when
    fewer than five calls raise before it, nothing after it matters, [run]
    has made exactly one attempt more than the failures before it, and no
    "maximum retries exceeded" is reported. *)
Theorem run_attempts_bounded (outs : list Run.rf) :
  (Run.attempts (Run.run outs) <= 5)%nat
  /\ (In Run.MaxRetries (Run.run outs)
      <-> (5 <= length outs)%nat /\ Forall (fun o => is_raise o = true) (firstn 5 outs))
  /\ (forall pre o post,
        outs = pre ++ Run.RFReturns o :: post ->
        Forall (fun x => is_raise x = true) pre ->
        (length pre < 5)%nat ->
        Run.run outs = Run.run (pre ++ [Run.RFReturns o])
        /\ Run.attempts (Run.run outs) = S (length pre)
        /\ ~ In Run.MaxRetries (Run.run outs)).
Proof.
  split; [|split]; [exact (proj1 (run_loop_bounds outs 0)) | exact (proj2 (run_loop_bounds outs 0))|].
  intros pre o post -> Hf Hl. unfold Run.run.
  destruct (run_loop_returns pre 0 o post Hf) as (H1 & H2 & H3); [exact Hl|].
  rewrite H1. auto.
Qed.

Lemma run_attempts_bounded_witness :
  Run.attempts (Run.run [Run.RFRaises true; Run.RFReturns true; Run.RFRaises false]) = 2%nat.
Proof.
  refine (proj1 (proj2 (proj2 (proj2 (run_attempts_bounded
            [Run.RFRaises true; Run.RFReturns true; Run.RFRaises false]))
            [Run.RFRaises true] true [Run.RFRaises false] eq_refl _ _)));
    [repeat constructor | cbn; lia].
Defined.

(** X8: in total, [run] sleeps at most 2 + 4 + 8 + 16 + 30 = 60 seconds
    between attempts. *)
Theorem run_total_backoff (outs : list Run.rf) :
  fold_right Z.add 0 (Run.sleeps (Run.run outs)) <= 60.
Proof.
  destruct (run_loop_prefix outs 0) as [n Hn]. unfold Run.run. rewrite Hn.
  destruct n as [|[|[|[|[|[|n]]]]]]; cbv; discriminate.
Qed.

(** ** [is_running] across the callbacks *)

(** X9: after any sequence of client events, [is_running] is the value
    set by the last [_on_open] (true) or [_on_error]/[_on_close] (false);
    the [_cleanup] run for [KeyboardInterrupt] never clears it. *)
Theorem is_running_last_event (es : list Client.event) :
  forall c, Client.is_running (Client.run_events c es)
            = last_running (Client.is_running c) es.
Proof.
  unfold Client.run_events.
  induction es as [|e es IH]; intros c; simpl; [reflexivity|].
  rewrite IH. destruct e; reflexivity.
Qed.
